(** * Spellchecker: weighted edit distance and suggestion ranking

    A shallow embedding of [src/spellcheck.js] and the proofs of its
    specification.

    - A JavaScript string is a sequence of UTF-16 code units; it is
      modelled as a [list N].  Indexing [s[i]] of a string yields the
      one-code-unit string at [i], modelled as that code unit.
    - The numbers the program computes are integers bounded by
      [2 * (m + n)], far below [2^53], so JavaScript's double arithmetic
      on them is exact and they are modelled in [Z].
    - The dynamic-programming table is a mutable array of arrays; it is
      modelled as a [list (list Z)] threaded through the loops.  The loops
      run in the option monad: [None] marks an access outside the
      allocated table (where JavaScript would throw on a missing row,
      read [undefined], or grow a row).  [sequenceTable_dp] shows that
      this never happens.
    - [Array.prototype.sort] is specified by ECMAScript to be stable; for
      a consistent comparator its result is the unique stable sorted
      arrangement, so it is modelled by a stable insertion sort. *)

From Stdlib Require Import ZArith NArith Ascii String.
From stdpp Require Import base tactics option list sorting.

Local Open Scope Z_scope.

(** ** Strings *)

Abbreviation code_unit := N (only parsing).
Abbreviation jsstring := (list N) (only parsing).

(** A string literal made of ASCII characters. *)
Definition lit (s : string) : jsstring :=
  N_of_ascii <$> list_ascii_of_string s.

(** ** Control flow *)

(** [for (let i = lo; ...; i++) body], run for [count] iterations with the
    loop state threaded through the option monad. *)
Fixpoint for_loop {St : Type} (count lo : nat)
    (body : nat → St → option St) (s : St) : option St :=
  match count with
  | O => Some s
  | S count' => s' ← body lo s; for_loop count' (S lo) body s'
  end.

(** [for (let i = lo; i <= hi; i++) body] *)
Definition for_range {St : Type} (lo hi : nat)
    (body : nat → St → option St) (s : St) : option St :=
  for_loop (S hi - lo) lo body s.

(** ** The table *)

Abbreviation table := (list (list Z)) (only parsing).

(** [dp[i][j]] as an rvalue. *)
Definition dp_get (dp : table) (i j : nat) : option Z :=
  row ← dp !! i; row !! j.

(** [dp[i][j] = v] *)
Definition dp_set (dp : table) (i j : nat) (v : Z) : option table :=
  row ← dp !! i;
  if decide (j < length row)%nat
  then Some (<[i := <[j := v]> row]> dp)
  else None.

(** ** The distance engine *)

(** [function isVowel(char) { return "aeiouAEIOU".includes(char); }]
    For a needle of one code unit, [includes] is membership. *)
Definition isVowel (char : code_unit) : bool :=
  bool_decide (char ∈ lit "aeiouAEIOU").

(** The [if]/[else if] chain that sets [cost] in the inner loop. *)
Definition cost_of (char1 char2 : code_unit) : Z :=
  if decide (char1 = char2) then 0
  else if isVowel char1 && isVowel char2 then 1
  else if negb (isVowel char1) && negb (isVowel char2) then 1
  else 3.

(** [Math.min(a, b, c)] *)
Definition min3 (a b c : Z) : Z := Z.min (Z.min a b) c.

(** The body of the inner loop at cell [(i, j)]. *)
Definition cell_step (s1 s2 : jsstring) (i j : nat) (dp : table)
    : option table :=
  char1 ← s1 !! (i - 1)%nat;
  char2 ← s2 !! (j - 1)%nat;
  let cost := cost_of char1 char2 in
  up ← dp_get dp (i - 1) j;
  left ← dp_get dp i (j - 1);
  diag ← dp_get dp (i - 1) (j - 1);
  dp_set dp i j (min3 (up + 2) (left + 2) (diag + cost)).

Definition sequenceTable (s1 s2 : jsstring) : option Z :=
  let m := length s1 in
  let n := length s2 in
  let dp := replicate (m + 1) (replicate (n + 1) 0) in
  dp ← for_range 0 m (λ i dp, dp_set dp i 0 (Z.of_nat i * 2)) dp;
  dp ← for_range 0 n (λ j dp, dp_set dp 0 j (Z.of_nat j * 2)) dp;
  dp ← for_range 1 m (λ i dp, for_range 1 n (cell_step s1 s2 i) dp) dp;
  dp_get dp m n.

(** ** The ranker *)

Record suggestion := Suggestion { word : jsstring; distance : Z }.

Section js_sort.
Context {A : Type} (comparefn : A → A → Z).

(** [x] is placed before the first element it compares strictly below
    or equal to, so elements that compare equal keep their order. *)
Fixpoint sort_insert (x : A) (l : list A) : list A :=
  match l with
  | [] => [x]
  | y :: l' =>
      if decide (comparefn x y <= 0) then x :: y :: l'
      else y :: sort_insert x l'
  end.

(** [Array.prototype.sort(comparefn)] *)
Fixpoint js_sort (l : list A) : list A :=
  match l with
  | [] => []
  | x :: l' => sort_insert x (js_sort l')
  end.
End js_sort.

(** [function getSuggestions(input)], with the global [dictionary] it
    reads passed explicitly.  [!input] holds exactly for the empty
    string. *)
Definition getSuggestions (dictionary : list jsstring) (input : jsstring)
    : option (list jsstring) :=
  match input with
  | [] => Some []
  | _ =>
      distances ← mapM (λ word,
          d ← sequenceTable input word;
          Some {| word := word; distance := d |}) dictionary;
      Some (word <$>
              take 10 (js_sort (λ a b, distance a - distance b) distances))
  end.

(** A call [getSuggestions(input, limit)].  The function declares the
    single parameter [input] and never reads [arguments], so JavaScript
    discards the surplus argument. *)
Definition getSuggestions_call (dictionary : list jsstring)
    (input : jsstring) (limit : Z) : option (list jsstring) :=
  getSuggestions dictionary input.

(** ** The dictionary loader *)

(** [s.split(sep)] for a separator of one code unit: the pieces of [s]
    between the occurrences of [sep].  A string without [sep], the empty
    string included, is a single piece. *)
Fixpoint split (sep : code_unit) (s : jsstring) : list jsstring :=
  match s with
  | [] => [[]]
  | c :: s' =>
      if decide (c = sep) then [] :: split sep s'
      else match split sep s' with
           | piece :: pieces => (c :: piece) :: pieces
           | [] => [[c]]
           end
  end.

(** The code units that [trim] strips: ECMAScript's WhiteSpace (TAB, VT,
    FF, SP, NBSP, ZWNBSP and the Unicode space separators) and
    LineTerminator (LF, CR, LS, PS).  All of them are single code
    units. *)
Definition is_white_space (c : code_unit) : bool :=
  bool_decide (c ∈ [9; 10; 11; 12; 13; 32; 160; 5760; 8232; 8233; 8239;
                    8287; 12288; 65279]%N)
  || ((8192 <=? c) && (c <=? 8202))%N.

(** [s.trimStart()] *)
Fixpoint trimStart (s : jsstring) : jsstring :=
  match s with
  | c :: s' => if is_white_space c then trimStart s' else s
  | [] => []
  end.

(** [s.trimEnd()] *)
Definition trimEnd (s : jsstring) : jsstring :=
  reverse (trimStart (reverse s)).

(** [s.trim()] *)
Definition trim (s : jsstring) : jsstring := trimEnd (trimStart s).

(** [async function loadDictionary()], with the global [dictionary] it
    assigns passed in and returned.  [response] is the outcome of the two
    awaited promises: the text of [dictionary.txt], or [None] when either
    promise is rejected; in that case the [catch] block logs the error
    and the assignment is not reached. *)
Definition loadDictionary (response : option jsstring)
    (dictionary : list jsstring) : list jsstring :=
  match response with
  | Some text => trim <$> split 10 text
  | None => dictionary
  end.

(** ** The page *)

(** What the script reads and writes of the page: the value of the text
    field [wordInput], the text of the [li] children of the list
    [suggestions], in order, and the global [dictionary]. *)
Record page := Page {
  field_value : jsstring;
  list_items : list jsstring;
  page_dictionary : list jsstring
}.

Inductive event :=
  | Loaded (response : option jsstring)
      (* [DOMContentLoaded] fired and [loadDictionary] settled *)
  | Input (value : jsstring)
      (* the user edited the field to [value]; ["input"] fires *)
  | Click (k : nat).
      (* the user clicked the [k]-th item of the list *)

(** The listeners.  The ["input"] listener replaces the children of the
    list by one item per suggestion.  The ["click"] listener of an item
    writes its word into the field and empties the list; assigning
    [value] from a script fires no ["input"] event.  A click where the
    list has no item reaches no listener. *)
Definition handle (e : event) (p : page) : option page :=
  match e with
  | Loaded response =>
      Some {| field_value := field_value p;
              list_items := list_items p;
              page_dictionary := loadDictionary response (page_dictionary p) |}
  | Input value =>
      suggestions ← getSuggestions (page_dictionary p) value;
      Some {| field_value := value;
              list_items := suggestions;
              page_dictionary := page_dictionary p |}
  | Click k =>
      match list_items p !! k with
      | Some word =>
          Some {| field_value := word;
                  list_items := [];
                  page_dictionary := page_dictionary p |}
      | None => Some p
      end
  end.

(** The page after a sequence of events. *)
Fixpoint run (events : list event) (p : page) : option page :=
  match events with
  | [] => Some p
  | e :: events' => p' ← handle e p; run events' p'
  end.

(** ** The specification's table

    The second definition of the distance, written from the words of the
    specification: the base row and column, the three-way recurrence, and
    the cost model stated by character class. *)
Module Spec.

(** Case folding of the letters [A]..[Z]. *)
Definition lower (c : code_unit) : code_unit :=
  if ((65 <=? c) && (c <=? 90))%N then (c + 32)%N else c.

(** The case-insensitive vowel set {a, e, i, o, u}. *)
Definition is_vowel (c : code_unit) : bool :=
  bool_decide (lower c ∈ lit "aeiou").

Definition cost (a b : code_unit) : Z :=
  if decide (a = b) then 0
  else match is_vowel a, is_vowel b with
       | true, true => 1
       | false, false => 1
       | _, _ => 3
       end.

Section dp.
Variables s1 s2 : jsstring.

(** [dp i j] is the cell [dp[i][j]]. *)
Fixpoint dp (i : nat) : nat → Z :=
  match i with
  | O => λ j, 2 * Z.of_nat j
  | S i' =>
      fix row (j : nat) : Z :=
        match j with
        | O => 2 * Z.of_nat (S i')
        | S j' =>
            Z.min (dp i' (S j') + 2)
              (Z.min (row j' + 2)
                 (dp i' j' + cost (s1 !!! i') (s2 !!! j')))
        end
  end.
End dp.

(** [distance(s1, s2)] is the bottom-right cell. *)
Definition distance (s1 s2 : jsstring) : Z :=
  dp s1 s2 (length s1) (length s2).

End Spec.

Arguments Spec.dp : simpl never.

(** ** Predicates used in the statements *)

(** The table keeps the shape it is allocated with: [m + 1] rows of
    [n + 1] cells. *)
Definition shape (m n : nat) (dp : table) : Prop :=
  length dp = S m ∧ Forall (λ row, length row = S n) dp.

(** The cells of [dp] selected by [Done] hold the values of the
    specification's table for [s1] and [s2]. *)
Definition filled (s1 s2 : jsstring) (Done : nat → nat → Prop)
    (dp : table) : Prop :=
  shape (length s1) (length s2) dp ∧
  ∀ i j, (i ≤ length s1)%nat → (j ≤ length s2)%nat → Done i j →
    dp_get dp i j = Some (Spec.dp s1 s2 i j).

(** [a] is at most as far from [input] as [b] is. *)
Definition closer (input a b : jsstring) : Prop :=
  ∃ da db, sequenceTable input a = Some da ∧
           sequenceTable input b = Some db ∧ da <= db.

(** The words of [l] at distance [d] from [input], in their order in [l]. *)
Definition at_distance (input : jsstring) (d : Z) (l : list jsstring)
    : list jsstring :=
  filter (λ w, sequenceTable input w = Some d) l.

(** A word without a line feed and without white space at either end. *)
Definition tidy (w : jsstring) : Prop :=
  (10%N ∉ w) ∧
  (∀ c, head w = Some c → is_white_space c = false) ∧
  (∀ c, last w = Some c → is_white_space c = false).

(** An event other than a successful load of the dictionary. *)
Definition quiet (e : event) : Prop := ∀ text, e ≠ Loaded (Some text).

(** [pieces.join(sep)] *)
Fixpoint join (sep : jsstring) (pieces : list jsstring) : jsstring :=
  match pieces with
  | [] => []
  | [piece] => piece
  | piece :: pieces' => piece ++ sep ++ join sep pieces'
  end.

(** * Proofs *)

(** ** The cost model *)

Lemma isVowel_is_vowel c : isVowel c = Spec.is_vowel c.
Proof.
  unfold isVowel, Spec.is_vowel, Spec.lower.
  apply bool_decide_ext.
  change (lit "aeiouAEIOU")
    with [97; 101; 105; 111; 117; 65; 69; 73; 79; 85]%N.
  change (lit "aeiou") with [97; 101; 105; 111; 117]%N.
  rewrite !elem_of_cons, !elem_of_nil.
  destruct (_ && _) eqn:E.
  - apply andb_true_iff in E as [?%N.leb_le ?%N.leb_le]. lia.
  - apply andb_false_iff in E as [?%N.leb_gt | ?%N.leb_gt]; lia.
Qed.

Lemma cost_of_cost a b : cost_of a b = Spec.cost a b.
Proof.
  unfold cost_of, Spec.cost. rewrite !isVowel_is_vowel.
  case_decide; [done|].
  by destruct (Spec.is_vowel a), (Spec.is_vowel b).
Qed.

Lemma cost_sym a b : Spec.cost a b = Spec.cost b a.
Proof.
  unfold Spec.cost.
  repeat case_decide; try congruence.
  by destruct (Spec.is_vowel a), (Spec.is_vowel b).
Qed.

Lemma cost_nonneg a b : 0 <= Spec.cost a b.
Proof.
  unfold Spec.cost. case_decide; [done|].
  by destruct (Spec.is_vowel a), (Spec.is_vowel b).
Qed.

Lemma cost_le_3 a b : Spec.cost a b <= 3.
Proof.
  unfold Spec.cost. case_decide; [done|].
  by destruct (Spec.is_vowel a), (Spec.is_vowel b).
Qed.

Lemma cost_zero a b : Spec.cost a b = 0 ↔ a = b.
Proof.
  unfold Spec.cost. case_decide; [done|].
  by destruct (Spec.is_vowel a), (Spec.is_vowel b).
Qed.

(** ** Loops *)

Lemma for_loop_inv {St} (Inv : nat → St → Prop) body count lo (s : St) :
  (∀ k s, (lo ≤ k < lo + count)%nat → Inv k s →
     ∃ s', body k s = Some s' ∧ Inv (S k) s') →
  Inv lo s →
  ∃ s', for_loop count lo body s = Some s' ∧ Inv (lo + count)%nat s'.
Proof.
  revert lo s. induction count as [|count IH]; intros lo s Hbody Hinv.
  - exists s. by rewrite Nat.add_0_r.
  - destruct (Hbody lo s) as (s1 & Hs1 & Hinv1); [lia|done|].
    destruct (IH (S lo) s1) as (s2 & Hs2 & Hinv2); [|done|].
    { intros k t ? ?. apply Hbody; [lia|done]. }
    exists s2. simpl. rewrite Hs1. simpl.
    split; [done|]. by replace (lo + S count)%nat with (S lo + count)%nat by lia.
Qed.

Lemma for_range_inv {St} (Inv : nat → St → Prop) body lo hi (s : St) :
  (lo ≤ S hi)%nat →
  (∀ k s, (lo ≤ k ≤ hi)%nat → Inv k s →
     ∃ s', body k s = Some s' ∧ Inv (S k) s') →
  Inv lo s →
  ∃ s', for_range lo hi body s = Some s' ∧ Inv (S hi) s'.
Proof.
  intros Hlo Hbody Hinv. unfold for_range.
  destruct (for_loop_inv Inv body (S hi - lo) lo s) as (s' & ? & ?);
    [|done|].
  { intros k t ? ?. apply Hbody; [lia|done]. }
  exists s'. split; [done|].
  by replace (S hi) with (lo + (S hi - lo))%nat by lia.
Qed.

(** ** The table *)

Lemma shape_replicate m n :
  shape m n (replicate (m + 1) (replicate (n + 1) 0)).
Proof.
  split.
  - rewrite length_replicate. lia.
  - apply Forall_replicate. rewrite length_replicate. lia.
Qed.

Lemma shape_row m n dp i :
  shape m n dp → (i ≤ m)%nat → ∃ row, dp !! i = Some row ∧ length row = S n.
Proof.
  intros [Hlen Hrows] Hi.
  destruct (lookup_lt_is_Some_2 dp i) as [row Hrow]; [lia|].
  exists row. split; [done|].
  by apply (proj1 (Forall_lookup _ _) Hrows i).
Qed.

Lemma dp_set_ok m n dp i j v :
  shape m n dp → (i ≤ m)%nat → (j ≤ n)%nat →
  ∃ dp', dp_set dp i j v = Some dp' ∧ shape m n dp' ∧
    dp_get dp' i j = Some v ∧
    ∀ i' j', (i', j') ≠ (i, j) → dp_get dp' i' j' = dp_get dp i' j'.
Proof.
  intros Hshape Hi Hj.
  destruct (shape_row m n dp i) as (row & Hrow & Hlen); [done..|].
  destruct Hshape as [Hrows Hall].
  exists (<[i := <[j := v]> row]> dp). unfold dp_set. rewrite Hrow. simpl.
  rewrite decide_True by lia.
  split; [done|]. split; [|split].
  - unfold shape. rewrite length_insert. split; [done|].
    apply Forall_insert; [done|]. by rewrite length_insert.
  - unfold dp_get. rewrite list_lookup_insert_eq by lia. simpl.
    apply list_lookup_insert_eq. lia.
  - intros i' j' Hne. unfold dp_get.
    destruct (decide (i' = i)) as [->|].
    + rewrite list_lookup_insert_eq by lia. rewrite Hrow. simpl.
      apply list_lookup_insert_ne. congruence.
    + by rewrite list_lookup_insert_ne.
Qed.

Section table.
Variables s1 s2 : jsstring.
Let m := length s1.
Let n := length s2.

Local Abbreviation filled := (filled s1 s2).

Lemma filled_set Done dp i j v :
  filled Done dp → (i ≤ m)%nat → (j ≤ n)%nat → v = Spec.dp s1 s2 i j →
  ∃ dp', dp_set dp i j v = Some dp' ∧
    filled (λ i' j', Done i' j' ∨ (i' = i ∧ j' = j)) dp'.
Proof.
  intros [Hshape Hcells] Hi Hj ->.
  destruct (dp_set_ok m n dp i j (Spec.dp s1 s2 i j))
    as (dp' & Hset & Hshape' & Hsame & Hother); [done..|].
  exists dp'. split; [done|]. split; [done|].
  intros i' j' Hi' Hj' [HD|[-> ->]]; [|done].
  destruct (decide ((i', j') = (i, j))) as [[= -> ->]|Hne]; [done|].
  rewrite Hother by done. by apply Hcells.
Qed.

Lemma filled_weaken (Done Done' : nat → nat → Prop) dp :
  filled Done dp →
  (∀ i j, (i ≤ m)%nat → (j ≤ n)%nat → Done' i j → Done i j) →
  filled Done' dp.
Proof. intros [? Hcells] Himp. split; [done|]. eauto. Qed.

Lemma dp_row_0 j : Spec.dp s1 s2 0 j = 2 * Z.of_nat j.
Proof. done. Qed.

Lemma dp_col_0 i : Spec.dp s1 s2 i 0 = 2 * Z.of_nat i.
Proof. by destruct i. Qed.

Lemma dp_step i j :
  Spec.dp s1 s2 (S i) (S j) =
    Z.min (Spec.dp s1 s2 i (S j) + 2)
      (Z.min (Spec.dp s1 s2 (S i) j + 2)
         (Spec.dp s1 s2 i j + Spec.cost (s1 !!! i) (s2 !!! j))).
Proof. done. Qed.

(** The first initialisation loop fills column 0. *)
Lemma init_column dp :
  shape m n dp →
  ∃ dp', for_range 0 m (λ i dp, dp_set dp i 0 (Z.of_nat i * 2)) dp
           = Some dp' ∧
         filled (λ i j, j = O) dp'.
Proof.
  intros Hshape.
  destruct (for_range_inv (λ k, filled (λ i j, (i < k)%nat ∧ j = O))
              (λ i dp, dp_set dp i 0 (Z.of_nat i * 2)) 0 m dp)
    as (dp' & Hrun & Hinv); [lia| | |].
  - intros k t [_ Hk] Hfilled.
    destruct (filled_set _ t k 0%nat (Z.of_nat k * 2) Hfilled)
      as (t' & Hset & Hfilled'); [done|lia| |].
    { rewrite dp_col_0. lia. }
    exists t'. split; [done|].
    eapply filled_weaken; [done|]. intros i j _ _ [? ->].
    destruct (decide (i = k)); [right|left]; split; done || lia.
  - split; [done|]. intros i j _ _ [? _]. lia.
  - exists dp'. split; [done|].
    eapply filled_weaken; [done|]. intros i j ? _ ->. split; [lia|done].
Qed.

(** The second initialisation loop fills row 0. *)
Lemma init_row dp :
  filled (λ i j, j = O) dp →
  ∃ dp', for_range 0 n (λ j dp, dp_set dp 0 j (Z.of_nat j * 2)) dp
           = Some dp' ∧
         filled (λ i j, i = O ∨ j = O) dp'.
Proof.
  intros Hfilled.
  destruct (for_range_inv
              (λ k, filled (λ i j, j = O ∨ (i = O ∧ (j < k)%nat)))
              (λ j dp, dp_set dp 0 j (Z.of_nat j * 2)) 0 n dp)
    as (dp' & Hrun & Hinv); [lia| | |].
  - intros k t [_ Hk] Ht.
    destruct (filled_set _ t 0%nat k (Z.of_nat k * 2) Ht)
      as (t' & Hset & Ht'); [lia|done| |].
    { rewrite dp_row_0. lia. }
    exists t'. split; [done|].
    eapply filled_weaken; [done|]. intros i j _ _ [->|[-> ?]].
    + by left; left.
    + destruct (decide (j = k)); [by right|]. left; right. split; [done|lia].
  - eapply filled_weaken; [done|]. intros i j _ _ [->|[_ ?]]; [done|lia].
  - exists dp'. split; [done|].
    eapply filled_weaken; [done|]. intros i j _ ? [->| ->].
    + right. split; [done|lia].
    + by left.
Qed.

(** One cell of the recurrence, given its three neighbours. *)
Lemma cell_step_filled Done dp i j :
  (1 ≤ i ≤ m)%nat → (1 ≤ j ≤ n)%nat →
  filled Done dp →
  Done (i - 1)%nat j → Done i (j - 1)%nat → Done (i - 1)%nat (j - 1)%nat →
  ∃ dp', cell_step s1 s2 i j dp = Some dp' ∧
    filled (λ i' j', Done i' j' ∨ (i' = i ∧ j' = j)) dp'.
Proof.
  intros Hi Hj Hfilled Hup Hleft Hdiag.
  destruct i as [|i]; [lia|]. destruct j as [|j]; [lia|].
  simpl in Hup, Hleft, Hdiag. rewrite !Nat.sub_0_r in *.
  destruct (lookup_lt_is_Some_2 s1 i) as [char1 Hc1]; [unfold m in Hi; lia|].
  destruct (lookup_lt_is_Some_2 s2 j) as [char2 Hc2]; [unfold n in Hj; lia|].
  unfold cell_step. simpl. rewrite !Nat.sub_0_r, Hc1, Hc2. simpl.
  destruct Hfilled as [Hshape Hcells].
  rewrite (Hcells i (S j)), (Hcells (S i) j), (Hcells i j)
    by (done || lia).
  simpl. apply filled_set; [done|lia|lia|].
  rewrite dp_step, cost_of_cost.
  rewrite (list_lookup_total_correct _ _ _ Hc1).
  rewrite (list_lookup_total_correct _ _ _ Hc2).
  unfold min3. lia.
Qed.

(** The inner loop fills row [i], given the rows above it. *)
Lemma fill_row dp i :
  (1 ≤ i ≤ m)%nat →
  filled (λ i' j, (i' < i)%nat ∨ j = O) dp →
  ∃ dp', for_range 1 n (cell_step s1 s2 i) dp = Some dp' ∧
         filled (λ i' j, (i' < S i)%nat ∨ j = O) dp'.
Proof.
  intros Hi Hfilled.
  destruct (for_range_inv
              (λ k, filled (λ i' j,
                 (i' < i)%nat ∨ j = O ∨ (i' = i ∧ (j < k)%nat)))
              (cell_step s1 s2 i) 1 n dp)
    as (dp' & Hrun & Hinv); [lia| | |].
  - intros k t Hk Ht.
    destruct (cell_step_filled _ t i k Hi Hk Ht)
      as (t' & Hstep & Ht').
    { left. lia. }
    { right. destruct (decide (k = 1%nat)) as [->|]; [by left|].
      right. split; [done|lia]. }
    { left. lia. }
    exists t'. split; [done|].
    eapply filled_weaken; [done|]. intros i' j _ _ [?|[->|[-> ?]]].
    + by left; left.
    + by left; right; left.
    + destruct (decide (j = k)); [by right|].
      left; right; right. split; [done|lia].
  - eapply filled_weaken; [done|].
    intros i' j _ _ [?|[->|[_ ?]]]; [by left|by right|right; lia].
  - exists dp'. split; [done|].
    eapply filled_weaken; [done|]. intros i' j _ ? [?| ->].
    + destruct (decide (i' = i)); [|left; lia].
      right; right. split; [done|lia].
    + by right; left.
Qed.

(** The outer loop fills the whole table. *)
Lemma fill_table dp :
  filled (λ i j, i = O ∨ j = O) dp →
  ∃ dp', for_range 1 m (λ i dp, for_range 1 n (cell_step s1 s2 i) dp) dp
           = Some dp' ∧
         filled (λ _ _, True) dp'.
Proof.
  intros Hfilled.
  destruct (for_range_inv
              (λ k, filled (λ i j, (i < k)%nat ∨ j = O))
              (λ i dp, for_range 1 n (cell_step s1 s2 i) dp) 1 m dp)
    as (dp' & Hrun & Hinv); [lia| | |].
  - intros k t Hk Ht. by apply fill_row.
  - eapply filled_weaken; [done|].
    intros i j _ _ [?| ->]; [left; lia|by right].
  - exists dp'. split; [done|].
    eapply filled_weaken; [done|]. intros i j ? _ _. left. lia.
Qed.

(** [sequenceTable] returns, and returns the bottom-right cell of the
    specification's table. *)
Lemma sequenceTable_dp :
  sequenceTable s1 s2 = Some (Spec.distance s1 s2).
Proof.
  unfold sequenceTable. fold m n.
  destruct (init_column _ (shape_replicate m n)) as (dp1 & -> & H1).
  simpl.
  destruct (init_row _ H1) as (dp2 & -> & H2). simpl.
  destruct (fill_table _ H2) as (dp3 & -> & [_ H3]). simpl.
  by apply H3.
Qed.
End table.

(** ** Properties of the table *)

Section dp_facts.
Variables s1 s2 : jsstring.

Lemma dp_nonneg i j : 0 <= Spec.dp s1 s2 i j.
Proof.
  revert j. induction i as [|i IHi]; intros j.
  - rewrite dp_row_0. lia.
  - induction j as [|j IHj].
    + rewrite dp_col_0. lia.
    + rewrite dp_step.
      pose proof (IHi j). pose proof (IHi (S j)).
      pose proof (cost_nonneg (s1 !!! i) (s2 !!! j)). lia.
Qed.

(** The path made of gaps only. *)
Lemma dp_le_gaps i j : Spec.dp s1 s2 i j <= 2 * (Z.of_nat i + Z.of_nat j).
Proof.
  revert j. induction i as [|i IHi]; intros j.
  - rewrite dp_row_0. lia.
  - destruct j as [|j].
    + rewrite dp_col_0. lia.
    + rewrite dp_step. pose proof (IHi (S j)). lia.
Qed.

(** The diagonal path: substitutions first, then gaps. *)
Lemma dp_le_diagonal i j :
  Spec.dp s1 s2 i j
  <= 2 * Z.max (Z.of_nat i) (Z.of_nat j) + Z.min (Z.of_nat i) (Z.of_nat j).
Proof.
  revert j. induction i as [|i IHi]; intros j.
  - rewrite dp_row_0. lia.
  - destruct j as [|j].
    + rewrite dp_col_0. lia.
    + rewrite dp_step. pose proof (IHi j).
      pose proof (cost_le_3 (s1 !!! i) (s2 !!! j)). lia.
Qed.

(** Only equal prefixes are at distance 0. *)
Lemma dp_zero_inv i j :
  (i ≤ length s1)%nat → (j ≤ length s2)%nat →
  Spec.dp s1 s2 i j = 0 → i = j ∧ take i s1 = take j s2.
Proof.
  revert j. induction i as [|i IHi]; intros j Hi Hj Hz.
  - rewrite dp_row_0 in Hz. by assert (j = O) as -> by lia.
  - destruct j as [|j].
    + rewrite dp_col_0 in Hz. lia.
    + rewrite dp_step in Hz.
      pose proof (dp_nonneg i (S j)). pose proof (dp_nonneg (S i) j).
      pose proof (dp_nonneg i j).
      pose proof (cost_nonneg (s1 !!! i) (s2 !!! j)).
      assert (Spec.dp s1 s2 i j = 0) as Hd by lia.
      assert (Spec.cost (s1 !!! i) (s2 !!! j) = 0) as Hc by lia.
      apply cost_zero in Hc.
      destruct (IHi j) as [-> Htake]; [lia..|done|].
      split; [done|].
      destruct (lookup_lt_is_Some_2 s1 j) as [a Ha]; [lia|].
      destruct (lookup_lt_is_Some_2 s2 j) as [b Hb]; [lia|].
      rewrite (take_S_r _ _ _ Ha), (take_S_r _ _ _ Hb), Htake.
      rewrite (list_lookup_total_correct _ _ _ Ha) in Hc.
      rewrite (list_lookup_total_correct _ _ _ Hb) in Hc.
      by rewrite Hc.
Qed.

Lemma dp_sym i j : Spec.dp s1 s2 i j = Spec.dp s2 s1 j i.
Proof.
  revert j. induction i as [|i IHi]; intros j.
  - by rewrite dp_row_0, dp_col_0.
  - induction j as [|j IHj].
    + by rewrite dp_row_0, dp_col_0.
    + rewrite !dp_step, IHj, (IHi j), (IHi (S j)), cost_sym. lia.
Qed.
End dp_facts.

Lemma dp_diag_zero s i : Spec.dp s s i i = 0.
Proof.
  induction i as [|i IH]; [done|].
  rewrite dp_step, IH.
  pose proof (dp_nonneg s s i (S i)). pose proof (dp_nonneg s s (S i) i).
  assert (Spec.cost (s !!! i) (s !!! i) = 0) as -> by by apply cost_zero.
  lia.
Qed.

Lemma distance_zero_eq s1 s2 : Spec.distance s1 s2 = 0 ↔ s1 = s2.
Proof.
  split.
  - intros Hz. apply dp_zero_inv in Hz as [Hlen Htake]; [|done..].
    by rewrite !firstn_all in Htake.
  - intros ->. apply dp_diag_zero.
Qed.

Lemma distance_nonneg s1 s2 : 0 <= Spec.distance s1 s2.
Proof. apply dp_nonneg. Qed.

(** ** The sort *)

Lemma sort_insert_fmap {A B} (f : A → B) (cmp : B → B → Z) x l :
  sort_insert cmp (f x) (f <$> l)
  = f <$> sort_insert (λ a b, cmp (f a) (f b)) x l.
Proof.
  induction l as [|y l IH]; [done|].
  csimpl. case_decide; [done|]. csimpl. by rewrite IH.
Qed.

Lemma js_sort_fmap {A B} (f : A → B) (cmp : B → B → Z) l :
  js_sort cmp (f <$> l) = f <$> js_sort (λ a b, cmp (f a) (f b)) l.
Proof.
  induction l as [|x l IH]; [done|].
  csimpl. by rewrite IH, sort_insert_fmap.
Qed.

Section sort_by_key.
Context {A : Type} (key : A → Z).
Let cmp (a b : A) : Z := key a - key b.
Let key_le (a b : A) : Prop := key a <= key b.

Lemma sort_insert_Permutation x l : sort_insert cmp x l ≡ₚ x :: l.
Proof.
  induction l as [|y l IH]; [done|].
  simpl. case_decide; [done|]. rewrite IH. apply Permutation_swap.
Qed.

Lemma js_sort_Permutation l : js_sort cmp l ≡ₚ l.
Proof.
  induction l as [|x l IH]; [done|].
  simpl. by rewrite sort_insert_Permutation, IH.
Qed.

Lemma sort_insert_sorted x l :
  StronglySorted key_le l → StronglySorted key_le (sort_insert cmp x l).
Proof.
  induction 1 as [|y l Hsorted IH Hall]; simpl.
  - by repeat constructor.
  - case_decide as Hxy.
    + constructor; [by constructor|].
      constructor; [unfold key_le, cmp in *; lia|].
      eapply Forall_impl; [done|].
      intros z Hz. unfold key_le, cmp in *. lia.
    + constructor; [done|].
      rewrite sort_insert_Permutation.
      constructor; [unfold key_le, cmp in *; lia|done].
Qed.

Lemma js_sort_sorted l : StronglySorted key_le (js_sort cmp l).
Proof.
  induction l as [|x l IH]; simpl; [constructor|].
  by apply sort_insert_sorted.
Qed.

(** An inserted element only moves past elements of strictly smaller
    key, so the elements of each key keep their order. *)
Lemma sort_insert_stable d x l :
  filter (λ a, key a = d) (sort_insert cmp x l)
  = filter (λ a, key a = d) (x :: l).
Proof.
  induction l as [|y l IH]; [done|].
  simpl. case_decide as Hxy; [done|].
  rewrite (filter_cons _ y), IH, !filter_cons.
  unfold cmp in Hxy.
  repeat case_decide; done || lia.
Qed.

Lemma js_sort_stable d l :
  filter (λ a, key a = d) (js_sort cmp l) = filter (λ a, key a = d) l.
Proof.
  induction l as [|x l IH]; [done|].
  simpl. by rewrite sort_insert_stable, !filter_cons, IH.
Qed.

(** A sorted arrangement that keeps the order within each key is unique:
    whatever algorithm an engine uses for its stable sort, the result is
    that of [js_sort]. *)
Lemma stable_sorted_unique l1 l2 :
  StronglySorted key_le l1 → StronglySorted key_le l2 →
  (∀ d, filter (λ a, key a = d) l1 = filter (λ a, key a = d) l2) →
  l1 = l2.
Proof.
  intros Hs1. revert l2.
  induction Hs1 as [|x l1 Hs1 IH Hx]; intros l2 Hs2 Hfilter.
  - destruct l2 as [|y l2]; [done|].
    specialize (Hfilter (key y)). rewrite filter_cons_True in Hfilter; done.
  - destruct Hs2 as [|y l2 Hs2 Hy].
    { specialize (Hfilter (key x)).
      rewrite filter_cons_True in Hfilter; done. }
    assert (x = y) as <-.
    { destruct (decide (key x = key y)) as [Heq|Hne].
      - specialize (Hfilter (key x)).
        rewrite !filter_cons_True in Hfilter by done. congruence.
      - pose proof (Hfilter (key x)) as Hfx.
        pose proof (Hfilter (key y)) as Hfy.
        rewrite filter_cons_True, filter_cons_False in Hfx by done.
        rewrite filter_cons_False, filter_cons_True in Hfy by done.
        assert (x ∈ l2) as Hin2.
        { eapply list_elem_of_filter. rewrite <- Hfx. left. }
        assert (y ∈ l1) as Hin1.
        { eapply list_elem_of_filter. rewrite Hfy. left. }
        apply (proj1 (Forall_forall _ _) Hy) in Hin2.
        apply (proj1 (Forall_forall _ _) Hx) in Hin1.
        unfold key_le in *. lia. }
    f_equal. apply IH; [done|]. intros d. specialize (Hfilter d).
    rewrite !filter_cons in Hfilter. case_decide; congruence.
Qed.

Lemma js_sort_unique l l' :
  StronglySorted key_le l' →
  (∀ d, filter (λ a, key a = d) l' = filter (λ a, key a = d) l) →
  l' = js_sort cmp l.
Proof.
  intros Hsorted Hstable.
  apply stable_sorted_unique; [done|apply js_sort_sorted|].
  intros d. by rewrite js_sort_stable.
Qed.

(** The first element of the sorted array has the least key. *)
Lemma js_sort_head_least l y :
  y ∈ l → ∃ x rest, js_sort cmp l = x :: rest ∧ key x <= key y.
Proof.
  intros Hy. rewrite <- js_sort_Permutation in Hy.
  pose proof (js_sort_sorted l) as Hsorted.
  destruct (js_sort cmp l) as [|x rest]; [by apply elem_of_nil in Hy|].
  exists x, rest. split; [done|].
  apply StronglySorted_inv in Hsorted as [_ Hall].
  apply elem_of_cons in Hy as [->|Hy]; [done|].
  by apply (proj1 (Forall_forall _ _) Hall).
Qed.
End sort_by_key.

(** ** The ranker *)

Lemma mapM_distances input dictionary :
  mapM (λ word, d ← sequenceTable input word;
                Some {| word := word; distance := d |}) dictionary
  = Some ((λ w, Suggestion w (Spec.distance input w)) <$> dictionary).
Proof.
  induction dictionary as [|w dictionary IH]; [done|].
  simpl. rewrite sequenceTable_dp. simpl. by rewrite IH.
Qed.

(** For a non-empty input, [getSuggestions] returns the first ten words
    of the dictionary sorted by distance to the input. *)
Lemma getSuggestions_rank dictionary input :
  input ≠ [] →
  getSuggestions dictionary input
  = Some (take 10 (js_sort
       (λ a b, Spec.distance input a - Spec.distance input b) dictionary)).
Proof.
  intros Hne. unfold getSuggestions.
  destruct input as [|c input]; [done|].
  rewrite mapM_distances. simpl. f_equal.
  rewrite fmap_take, js_sort_fmap, <- list_fmap_compose. simpl.
  by rewrite list_fmap_id.
Qed.

Lemma StronglySorted_mono {A} (R R' : A → A → Prop) l :
  (∀ a b, R a b → R' a b) → StronglySorted R l → StronglySorted R' l.
Proof.
  intros HR. induction 1 as [|x l _ IH Hall]; constructor; [done|].
  eapply Forall_impl; [done|]. auto.
Qed.

Lemma StronglySorted_take {A} (R : A → A → Prop) n l :
  StronglySorted R l → StronglySorted R (take n l).
Proof.
  intros Hsorted. rewrite <- (take_drop n l) in Hsorted.
  by apply StronglySorted_app_1_l in Hsorted.
Qed.

Lemma filter_take_prefix {A} (P : A → Prop) `{!∀ x, Decision (P x)} n l :
  filter P (take n l) `prefix_of` filter P l.
Proof.
  rewrite <- (take_drop n l) at 2. rewrite filter_app.
  by apply prefix_app_r.
Qed.

Lemma at_distance_spec input d l :
  at_distance input d l = filter (λ w, Spec.distance input w = d) l.
Proof.
  apply list_filter_iff. intros w. rewrite sequenceTable_dp.
  split; congruence.
Qed.

(** * The claims *)

(** C1: [distance(s1, s2)] is the cell [dp[m][n]] of the table with
    [dp[i][0] = 2i], [dp[0][j] = 2j] and
    [dp[i][j] = min(dp[i-1][j]+2, dp[i][j-1]+2,
                    dp[i-1][j-1]+cost(s1[i-1], s2[j-1]))],
    where [cost] is 0 on equal characters, 1 between two vowels, 1 between
    two non-vowels and 3 between a vowel and a non-vowel. *)
Theorem sequenceTable_refines_table (s1 s2 : jsstring) :
  sequenceTable s1 s2 = Some (Spec.dp s1 s2 (length s1) (length s2)) ∧
  (∀ i, Spec.dp s1 s2 i 0 = 2 * Z.of_nat i) ∧
  (∀ j, Spec.dp s1 s2 0 j = 2 * Z.of_nat j) ∧
  (∀ i j, Spec.dp s1 s2 (S i) (S j) =
     Z.min (Spec.dp s1 s2 i (S j) + 2)
       (Z.min (Spec.dp s1 s2 (S i) j + 2)
          (Spec.dp s1 s2 i j + Spec.cost (s1 !!! i) (s2 !!! j)))) ∧
  (∀ a b, cost_of a b = Spec.cost a b).
Proof.
  split; [apply sequenceTable_dp|].
  split; [apply dp_col_0|].
  split; [apply dp_row_0|].
  split; [apply dp_step|apply cost_of_cost].
Qed.

(** C2: for a non-empty input the suggestions are in ascending order of
    distance to the input, and the suggestions at any one distance appear
    in the order they have in the dictionary; for the dictionary
    ["cat", "bat", "cot"] and the input "cat" the result is
    ["cat", "bat", "cot"]. *)
Theorem getSuggestions_sorted_stable :
  (∀ (dictionary : list jsstring) (input : jsstring),
     input ≠ [] →
     ∃ r, getSuggestions dictionary input = Some r ∧
          StronglySorted (closer input) r ∧
          ∀ d, at_distance input d r `prefix_of`
               at_distance input d dictionary) ∧
  getSuggestions [lit "cat"; lit "bat"; lit "cot"] (lit "cat")
  = Some [lit "cat"; lit "bat"; lit "cot"].
Proof.
  split; [|by vm_compute].
  intros dictionary input Hne. eexists.
  split; [by apply getSuggestions_rank|]. split.
  - apply StronglySorted_take.
    eapply StronglySorted_mono;
      [|apply (js_sort_sorted (Spec.distance input))].
    intros a b Hab. exists (Spec.distance input a), (Spec.distance input b).
    by rewrite !sequenceTable_dp.
  - intros d. rewrite !at_distance_spec.
    rewrite <- (js_sort_stable (Spec.distance input) d dictionary).
    apply filter_take_prefix.
Qed.

Lemma getSuggestions_sorted_stable_witness :
  ∃ r, getSuggestions [lit "cot"; lit "dog"; lit "bat"] (lit "cat") = Some r ∧
       StronglySorted (closer (lit "cat")) r ∧
       ∀ d, at_distance (lit "cat") d r `prefix_of`
            at_distance (lit "cat") d [lit "cot"; lit "dog"; lit "bat"].
Proof.
  apply (proj1 getSuggestions_sorted_stable). vm_compute. discriminate.
Defined.

(** C3, as the specification states it, fails: a limit passed to
    [getSuggestions] is discarded, so a limit of 1 yields two suggestions
    and a limit of 0 yields a suggestion. *)
Lemma getSuggestions_limit_ignored :
  (∃ r, getSuggestions_call [lit "cat"; lit "bat"] (lit "cat") 1 = Some r ∧
        Z.of_nat (length r) ≠ Z.min 1 2) ∧
  (∃ r, getSuggestions_call [lit "cat"] (lit "cat") 0 = Some r ∧ r ≠ []).
Proof.
  split; eexists; (split; [by vm_compute|]); [simpl; lia|discriminate].
Qed.

(** C3, amended: [getSuggestions] has no limit parameter and returns at
    most ten suggestions; for a non-empty input the result has
    [min(10, len(dictionary))] elements, whatever limit a caller passes. *)
Theorem getSuggestions_length (dictionary : list jsstring)
    (input : jsstring) :
  input ≠ [] →
  ∃ r, getSuggestions dictionary input = Some r ∧
       (∀ limit, getSuggestions_call dictionary input limit = Some r) ∧
       length r = (10 `min` length dictionary)%nat.
Proof.
  intros Hne. eexists. split; [by apply getSuggestions_rank|].
  split; [intros; by apply getSuggestions_rank|].
  rewrite length_take.
  by rewrite (js_sort_Permutation (Spec.distance input)).
Qed.

Lemma getSuggestions_length_witness :
  ∃ r, getSuggestions [lit "cat"; lit "bat"] (lit "cat") = Some r ∧
       (∀ limit,
          getSuggestions_call [lit "cat"; lit "bat"] (lit "cat") limit
          = Some r) ∧
       length r = (10 `min` 2)%nat.
Proof.
  apply (getSuggestions_length [lit "cat"; lit "bat"] (lit "cat")).
  vm_compute. discriminate.
Defined.

(** C4: [getSuggestions] returns the empty array for the empty input and
    for the empty dictionary, and does so without an error. *)
Theorem getSuggestions_empty :
  (∀ dictionary, getSuggestions dictionary [] = Some []) ∧
  (∀ input, getSuggestions [] input = Some []).
Proof.
  split; [done|]. intros input. by destruct input.
Qed.

(** C5: [distance("", s) = 2 * length(s)] and
    [distance(s, "") = 2 * length(s)]. *)
Theorem sequenceTable_empty (s : jsstring) :
  sequenceTable [] s = Some (2 * Z.of_nat (length s)) ∧
  sequenceTable s [] = Some (2 * Z.of_nat (length s)).
Proof.
  rewrite !sequenceTable_dp. unfold Spec.distance. simpl.
  by rewrite dp_row_0, dp_col_0.
Qed.

(** C6: [distance(w, w) = 0]. *)
Theorem sequenceTable_refl (w : jsstring) : sequenceTable w w = Some 0.
Proof. rewrite sequenceTable_dp. f_equal. apply dp_diag_zero. Qed.

(** C7, as the specification states it, fails: the distance between "a"
    and "b" is 3, above [2 * max(1, 1)]. *)
Lemma sequenceTable_above_twice_max :
  ∃ d, sequenceTable (lit "a") (lit "b") = Some d ∧
       ¬ d <= 2 * Z.max (Z.of_nat (length (lit "a")))
                        (Z.of_nat (length (lit "b"))).
Proof. exists 3. split; [by vm_compute|]. simpl. lia. Qed.

(** C7, amended: [distance(a, b)] is a non-negative integer bounded by
    the cost of the path made of gaps only, [2 * (len(a) + len(b))], and
    by the cost of the diagonal path,
    [2 * max(len(a), len(b)) + min(len(a), len(b))]. *)
Theorem sequenceTable_bounds (a b : jsstring) :
  ∃ d, sequenceTable a b = Some d ∧
       0 <= d ∧
       d <= 2 * (Z.of_nat (length a) + Z.of_nat (length b)) ∧
       d <= 2 * Z.max (Z.of_nat (length a)) (Z.of_nat (length b))
            + Z.min (Z.of_nat (length a)) (Z.of_nat (length b)).
Proof.
  exists (Spec.distance a b). split; [apply sequenceTable_dp|].
  split; [apply dp_nonneg|].
  split; [apply dp_le_gaps|apply dp_le_diagonal].
Qed.

(** C8: for a non-empty word [w] of the dictionary, [getSuggestions] on
    [w] returns [w] first, and [w] is at distance 0 from itself. *)
Theorem getSuggestions_round_trip (dictionary : list jsstring)
    (w : jsstring) :
  w ∈ dictionary → w ≠ [] →
  ∃ rest, getSuggestions dictionary w = Some (w :: rest) ∧
          sequenceTable w w = Some 0.
Proof.
  intros Hin Hne.
  destruct (js_sort_head_least (Spec.distance w) dictionary w Hin)
    as (x & rest & Hsort & Hle).
  assert (Spec.distance w w = 0) as Hww by by apply distance_zero_eq.
  pose proof (distance_nonneg w x).
  assert (w = x) as <- by (apply distance_zero_eq; lia).
  exists (take 9 rest). split.
  - rewrite getSuggestions_rank by done. by rewrite Hsort.
  - by rewrite sequenceTable_dp, Hww.
Qed.

Lemma getSuggestions_round_trip_witness :
  ∃ rest, getSuggestions [lit "hello"; lit "cat"; lit "cot"] (lit "cat")
          = Some (lit "cat" :: rest) ∧
          sequenceTable (lit "cat") (lit "cat") = Some 0.
Proof.
  apply (getSuggestions_round_trip
           [lit "hello"; lit "cat"; lit "cot"] (lit "cat")).
  - apply list_elem_of_further, list_elem_of_here.
  - vm_compute. discriminate.
Defined.

(** C9: for the dictionary ["hello", "hallo", "jello", "world"] and the
    input "hwllo", "hello" and "hallo" come before "world" in the
    suggestions, and "hello" comes no later than "hallo". *)
Theorem getSuggestions_hwllo :
  getSuggestions [lit "hello"; lit "hallo"; lit "jello"; lit "world"]
    (lit "hwllo")
  = Some [lit "hello"; lit "hallo"; lit "jello"; lit "world"] ∧
  sequenceTable (lit "hwllo") (lit "hello") = Some 3 ∧
  sequenceTable (lit "hwllo") (lit "hallo") = Some 3 ∧
  sequenceTable (lit "hwllo") (lit "jello") = Some 4 ∧
  sequenceTable (lit "hwllo") (lit "world") = Some 7.
Proof. by vm_compute. Qed.

(** C10: the distance is symmetric, [distance(a, b) = distance(b, a)]. *)
Theorem sequenceTable_sym (a b : jsstring) :
  sequenceTable a b = sequenceTable b a.
Proof. rewrite !sequenceTable_dp. f_equal. apply dp_sym. Qed.

(** * Further properties of the distance engine *)

Lemma cost_triangle a b c :
  Spec.cost a c <= Spec.cost a b + Spec.cost b c.
Proof.
  unfold Spec.cost.
  destruct (Spec.is_vowel a) eqn:Ha, (Spec.is_vowel b) eqn:Hb,
    (Spec.is_vowel c) eqn:Hc;
    repeat case_decide; try lia; congruence.
Qed.

(** Every step of the table moves at most one cell away from the
    diagonal, and a step off the diagonal is a gap. *)
Lemma dp_ge_gaps a b i j :
  2 * Z.abs (Z.of_nat i - Z.of_nat j) <= Spec.dp a b i j.
Proof.
  revert j. induction i as [|i IHi]; intros j.
  - rewrite dp_row_0. lia.
  - induction j as [|j IHj].
    + rewrite dp_col_0. lia.
    + rewrite dp_step.
      pose proof (IHi j). pose proof (IHi (S j)).
      pose proof (cost_nonneg (a !!! i) (b !!! j)). lia.
Qed.

Lemma dp_triangle a b c i j k :
  Spec.dp a c i k <= Spec.dp a b i j + Spec.dp b c j k.
Proof.
  revert j k. induction i as [|i IHi].
  - intros j k. rewrite !dp_row_0.
    pose proof (dp_ge_gaps b c j k). lia.
  - induction j as [|j IHj].
    + intros k. rewrite dp_col_0, dp_row_0.
      pose proof (dp_le_gaps a c (S i) k). lia.
    + induction k as [|k IHk].
      * rewrite !dp_col_0. pose proof (dp_ge_gaps a b (S i) (S j)). lia.
      * pose proof (IHi (S j) (S k)). pose proof (IHi j (S k)).
        pose proof (IHi j k). pose proof (IHj (S k)). pose proof (IHj k).
        pose proof (cost_triangle (a !!! i) (b !!! j) (c !!! k)).
        pose proof (dp_step a c i k) as Hac.
        pose proof (dp_step a b i j) as Hab.
        pose proof (dp_step b c j k) as Hbc.
        pose proof (cost_nonneg (a !!! i) (b !!! j)).
        pose proof (cost_nonneg (b !!! j) (c !!! k)).
        lia.
Qed.

(** A cell of the table depends only on the prefixes it aligns. *)
Lemma dp_ext s1 s2 t1 t2 i j :
  (∀ i', (i' < i)%nat → s1 !!! i' = t1 !!! i') →
  (∀ j', (j' < j)%nat → s2 !!! j' = t2 !!! j') →
  Spec.dp s1 s2 i j = Spec.dp t1 t2 i j.
Proof.
  revert j. induction i as [|i IHi]; intros j H1 H2.
  - by rewrite !dp_row_0.
  - induction j as [|j IHj].
    + by rewrite !dp_col_0.
    + rewrite !dp_step, H1, H2 by lia.
      rewrite IHj by (intros; apply H2; lia).
      by rewrite !IHi by (intros; (apply H1 || apply H2); lia).
Qed.

Lemma dp_app_l s1 s2 x i j :
  (i ≤ length s1)%nat → Spec.dp (s1 ++ x) s2 i j = Spec.dp s1 s2 i j.
Proof.
  intros Hi. apply dp_ext; [|done].
  intros i' ?. apply lookup_total_app_l. lia.
Qed.

Lemma dp_app_r s1 s2 y i j :
  (j ≤ length s2)%nat → Spec.dp s1 (s2 ++ y) i j = Spec.dp s1 s2 i j.
Proof. intros Hj. by rewrite dp_sym, dp_app_l, dp_sym. Qed.

(** One more character is one gap away. *)
Lemma distance_snoc_gap s x : Spec.distance (s ++ [x]) s <= 2.
Proof.
  unfold Spec.distance. rewrite length_app, Nat.add_1_r.
  destruct (length s) as [|n] eqn:Hlen.
  - by rewrite dp_col_0.
  - rewrite dp_step, dp_app_l by lia.
    pose proof (dp_diag_zero s (S n)).
    lia.
Qed.

Lemma distance_triangle a b c :
  Spec.distance a c <= Spec.distance a b + Spec.distance b c.
Proof. apply dp_triangle. Qed.

Lemma distance_sym a b : Spec.distance a b = Spec.distance b a.
Proof. apply dp_sym. Qed.

(** A character shared at the end of both strings is aligned for free. *)
Lemma distance_snoc a b x :
  Spec.distance (a ++ [x]) (b ++ [x]) = Spec.distance a b.
Proof.
  pose proof (distance_triangle a (a ++ [x]) b) as H1.
  pose proof (distance_triangle a (b ++ [x]) b) as H2.
  pose proof (distance_snoc_gap a x) as Ga.
  pose proof (distance_snoc_gap b x) as Gb.
  rewrite (distance_sym a (a ++ [x])) in H1.
  unfold Spec.distance in *. rewrite !length_app, !Nat.add_1_r in *.
  rewrite dp_step.
  rewrite (dp_app_l a _ [x] (length a) (S (length b))) by done.
  rewrite (dp_app_r _ b [x] (S (length a)) (length b)) by done.
  rewrite (dp_app_l a _ [x] (length a) (length b)) by done.
  rewrite (dp_app_r a b [x] (length a) (length b)) by done.
  rewrite (lookup_total_app_r a), (lookup_total_app_r b) by done.
  rewrite !Nat.sub_diag. simpl.
  assert (Spec.cost x x = 0) as -> by by apply cost_zero.
  lia.
Qed.

Lemma distance_app a b s :
  Spec.distance (a ++ s) (b ++ s) = Spec.distance a b.
Proof.
  induction s as [|x s IH] using rev_ind.
  - by rewrite !app_nil_r.
  - by rewrite !app_assoc, distance_snoc.
Qed.

(** One inserted character is one gap away, wherever it is inserted. *)
Lemma distance_insert u x v : Spec.distance (u ++ x :: v) (u ++ v) <= 2.
Proof.
  rewrite (cons_middle x), app_assoc, distance_app.
  apply distance_snoc_gap.
Qed.

(** One replaced character costs at most its substitution. *)
Lemma distance_replace u x y v :
  Spec.distance (u ++ x :: v) (u ++ y :: v) <= Spec.cost x y.
Proof.
  rewrite (cons_middle x), (cons_middle y), !app_assoc, distance_app.
  unfold Spec.distance. rewrite !length_app, !Nat.add_1_r, dp_step.
  rewrite (dp_app_l u _ [x] (length u) (length u)) by done.
  rewrite (dp_app_r u u [y] (length u) (length u)) by done.
  rewrite !lookup_total_app_r, !Nat.sub_diag by done. simpl.
  pose proof (dp_diag_zero u (length u)). lia.
Qed.

(** [min_leaf] proves [m <= t] for a nest of minima [m] one of whose
    leaves is below [t]; [min_eq] proves the equality of two such nests
    with the same leaves. *)
Ltac min_leaf :=
  match goal with
  | |- Z.min _ _ <= _ =>
      first [ (etransitivity; [apply Z.le_min_l|]); min_leaf
            | (etransitivity; [apply Z.le_min_r|]); min_leaf ]
  | |- _ <= _ => lia
  end.

Ltac min_eq :=
  rewrite <- ?Z.add_min_distr_r;
  apply Z.le_antisymm; repeat apply Z.min_glb; min_leaf.

(** The recurrence read from the front of the strings: the first step of
    an alignment pays for the first characters.  The table is filled from
    the back, so this is a fact to prove. *)
Lemma dp_front x a y b i j :
  Spec.dp (x :: a) (y :: b) (S i) (S j) =
    Z.min (Spec.dp a (y :: b) i (S j) + 2)
      (Z.min (Spec.dp (x :: a) b (S i) j + 2)
         (Spec.dp a b i j + Spec.cost x y)).
Proof.
  revert j. induction i as [|i IHi].
  - induction j as [|j IHj].
    + rewrite dp_step, !dp_row_0, !dp_col_0. simpl. min_eq.
    + rewrite dp_step, IHj.
      rewrite (dp_step (x :: a) b 0 j).
      rewrite !dp_row_0. simpl. min_eq.
  - induction j as [|j IHj].
    + rewrite dp_step, (IHi 0%nat).
      rewrite (dp_step a (y :: b) i 0).
      rewrite !dp_col_0. simpl. min_eq.
    + rewrite dp_step, IHj, (IHi (S j)), (IHi j).
      rewrite (dp_step a (y :: b) i (S j)).
      rewrite (dp_step (x :: a) b (S i) j).
      rewrite (dp_step a b i j).
      simpl. min_eq.
Qed.

Lemma distance_cons_gap s x : Spec.distance (x :: s) s <= 2.
Proof.
  unfold Spec.distance. destruct s as [|y s]; simpl.
  - by rewrite dp_col_0.
  - rewrite dp_front.
    pose proof (dp_diag_zero (y :: s) (S (length s))). lia.
Qed.

(** A character shared at the start of both strings is aligned for
    free. *)
Lemma distance_cons a b x :
  Spec.distance (x :: a) (x :: b) = Spec.distance a b.
Proof.
  pose proof (distance_triangle a (x :: a) b) as H1.
  pose proof (distance_triangle a (x :: b) b) as H2.
  pose proof (distance_cons_gap a x) as Ga.
  pose proof (distance_cons_gap b x) as Gb.
  rewrite (distance_sym a (x :: a)) in H1.
  unfold Spec.distance in *. simpl in *. rewrite dp_front.
  assert (Spec.cost x x = 0) as -> by by apply cost_zero.
  lia.
Qed.

Lemma distance_app_l p a b :
  Spec.distance (p ++ a) (p ++ b) = Spec.distance a b.
Proof.
  induction p as [|x p IH]; [done|].
  by rewrite <- !app_comm_cons, distance_cons.
Qed.

(** * Properties of the dictionary loader *)

(** ** [split] *)

Lemma split_nonempty sep s : split sep s ≠ [].
Proof.
  destruct s as [|c s]; simpl; [done|].
  case_decide; [done|]. by destruct (split sep s).
Qed.

Lemma split_cons_ne sep c s :
  c ≠ sep →
  ∃ piece pieces, split sep s = piece :: pieces ∧
                  split sep (c :: s) = (c :: piece) :: pieces.
Proof.
  intros Hne. simpl. rewrite decide_False by done.
  destruct (split sep s) as [|piece pieces] eqn:Hs.
  - by apply split_nonempty in Hs.
  - by exists piece, pieces.
Qed.

Lemma split_length sep s :
  length (split sep s) = S (length (filter (λ c, c = sep) s)).
Proof.
  induction s as [|c s IH]; [done|].
  rewrite filter_cons. case_decide as Hc.
  - simpl. rewrite decide_True by done. simpl. by rewrite IH.
  - destruct (split_cons_ne sep c s Hc) as (piece & pieces & Hs & ->).
    rewrite Hs in IH. by rewrite <- IH.
Qed.

Lemma split_no_sep sep s : Forall (λ piece, sep ∉ piece) (split sep s).
Proof.
  induction s as [|c s IH].
  - repeat constructor. apply not_elem_of_nil.
  - destruct (decide (c = sep)) as [->|Hc].
    + simpl. rewrite decide_True by done.
      constructor; [apply not_elem_of_nil|done].
    + destruct (split_cons_ne sep c s Hc) as (piece & pieces & Hs & ->).
      rewrite Hs in IH. apply Forall_cons in IH as [Hpiece Hpieces].
      constructor; [|done].
      apply not_elem_of_cons. split; [congruence|done].
Qed.

Lemma join_cons sep piece pieces :
  pieces ≠ [] → join sep (piece :: pieces) = piece ++ sep ++ join sep pieces.
Proof. by destruct pieces. Qed.

Lemma join_split sep s : join [sep] (split sep s) = s.
Proof.
  induction s as [|c s IH]; [done|].
  destruct (decide (c = sep)) as [->|Hc].
  - simpl. rewrite decide_True by done.
    rewrite join_cons by apply split_nonempty. simpl. by rewrite IH.
  - destruct (split_cons_ne sep c s Hc) as (piece & pieces & Hs & ->).
    rewrite Hs in IH. rewrite <- IH.
    by destruct pieces.
Qed.

Lemma split_no_occurrence sep s : sep ∉ s → split sep s = [s].
Proof.
  induction s as [|c s IH]; intros Hs; [done|].
  apply not_elem_of_cons in Hs as [Hc Hs].
  destruct (split_cons_ne sep c s) as (piece & pieces & Hsplit & ->);
    [done|].
  rewrite IH in Hsplit by done. by simplify_eq.
Qed.

Lemma split_app sep s rest :
  sep ∉ s → split sep (s ++ sep :: rest) = s :: split sep rest.
Proof.
  induction s as [|c s IH]; intros Hs.
  - simpl. by rewrite decide_True.
  - apply not_elem_of_cons in Hs as [Hc Hs].
    destruct (split_cons_ne sep c (s ++ sep :: rest))
      as (piece & pieces & Hsplit & Heq); [done|].
    rewrite <- app_comm_cons, Heq.
    rewrite IH in Hsplit by done. by simplify_eq.
Qed.

(** ** [trim] *)

Lemma trimStart_head s c :
  head (trimStart s) = Some c → is_white_space c = false.
Proof.
  induction s as [|c' s IH]; [done|].
  simpl. destruct (is_white_space c') eqn:Hc'; [done|].
  simpl. congruence.
Qed.

Lemma trimStart_suffix s : trimStart s `suffix_of` s.
Proof.
  induction s as [|c s IH]; [done|].
  simpl. destruct (is_white_space c); [|done].
  by apply suffix_cons_r.
Qed.

Lemma trimStart_last s c :
  last (trimStart s) = Some c → last s = Some c.
Proof.
  destruct (trimStart_suffix s) as [k Hk]. intros Hlast.
  rewrite Hk at 1. rewrite last_app, Hlast. done.
Qed.

Lemma trimStart_app s1 s2 :
  trimStart (s1 ++ s2)
  = match trimStart s1 with
    | [] => trimStart s2
    | _ => trimStart s1 ++ s2
    end.
Proof.
  induction s1 as [|c s1 IH]; [done|].
  simpl. by destruct (is_white_space c).
Qed.

Lemma trimStart_clean s :
  (∀ c, head s = Some c → is_white_space c = false) → trimStart s = s.
Proof.
  destruct s as [|c s]; [done|].
  intros Hc. simpl. by rewrite (Hc c).
Qed.

Lemma trim_head s c : head (trim s) = Some c → is_white_space c = false.
Proof.
  unfold trim, trimEnd. rewrite head_reverse. intros Hlast.
  apply trimStart_last in Hlast. rewrite last_reverse in Hlast.
  by apply trimStart_head in Hlast.
Qed.

Lemma trim_last s c : last (trim s) = Some c → is_white_space c = false.
Proof.
  unfold trim, trimEnd. rewrite last_reverse. apply trimStart_head.
Qed.

Lemma trim_elem_of s c : c ∈ trim s → c ∈ s.
Proof.
  unfold trim, trimEnd. rewrite elem_of_reverse. intros Hc.
  destruct (trimStart_suffix (reverse (trimStart s))) as [k1 Hk1].
  destruct (trimStart_suffix s) as [k2 Hk2].
  assert (c ∈ reverse (trimStart s)) as Hc'.
  { rewrite Hk1. apply elem_of_app. by right. }
  rewrite elem_of_reverse in Hc'. rewrite Hk2. apply elem_of_app. by right.
Qed.

Lemma trim_clean s :
  (∀ c, head s = Some c → is_white_space c = false) →
  (∀ c, last s = Some c → is_white_space c = false) →
  trim s = s.
Proof.
  intros Hhead Hlast. unfold trim, trimEnd.
  rewrite (trimStart_clean s) by done.
  rewrite trimStart_clean, reverse_involutive; [done|].
  intros c. rewrite head_reverse. apply Hlast.
Qed.

Lemma trim_snoc_white s c : is_white_space c = true → trim (s ++ [c]) = trim s.
Proof.
  intros Hc. unfold trim, trimEnd. rewrite trimStart_app.
  destruct (trimStart s) as [|c' s'] eqn:Hs.
  - simpl. by rewrite Hc.
  - rewrite reverse_app. simpl. by rewrite Hc.
Qed.

Lemma split_snoc_sep sep s : split sep (s ++ [sep]) = split sep s ++ [[]].
Proof.
  induction s as [|c s IH].
  - simpl. by rewrite decide_True.
  - destruct (decide (c = sep)) as [->|Hc].
    + simpl. rewrite !decide_True by done. by rewrite IH.
    + destruct (split_cons_ne sep c s Hc) as (piece & pieces & Hs & ->).
      destruct (split_cons_ne sep c (s ++ [sep]) Hc)
        as (piece' & pieces' & Hs' & Heq).
      rewrite <- app_comm_cons, Heq.
      rewrite IH, Hs in Hs'. simpl in Hs'. by simplify_eq.
Qed.

Lemma is_white_space_LF : is_white_space 10 = true.
Proof. done. Qed.

Lemma trim_split_join_LF words :
  words ≠ [] → Forall (λ w, 10%N ∉ w) words →
  trim <$> split 10 (join [10%N] words) = trim <$> words.
Proof.
  induction words as [|w words IH]; [done|].
  intros _ Hall. apply Forall_cons in Hall as [Hw Hall].
  destruct words as [|w' words].
  - simpl. by rewrite split_no_occurrence.
  - rewrite join_cons by done. simpl app.
    rewrite split_app by done. csimpl. f_equal.
    by apply IH.
Qed.

Lemma trim_split_join_CRLF words :
  words ≠ [] → Forall (λ w, 10%N ∉ w) words →
  trim <$> split 10 (join [13; 10]%N words) = trim <$> words.
Proof.
  induction words as [|w words IH]; [done|].
  intros _ Hall. apply Forall_cons in Hall as [Hw Hall].
  destruct words as [|w' words].
  - simpl. by rewrite split_no_occurrence.
  - rewrite join_cons by done.
    change (w ++ [13; 10]%N ++ join [13; 10]%N (w' :: words))
      with (w ++ [13%N] ++ 10%N :: join [13; 10]%N (w' :: words)).
    rewrite app_assoc, split_app.
    + csimpl. rewrite trim_snoc_white by done. f_equal. by apply IH.
    + rewrite elem_of_app, list_elem_of_singleton. intros [?|?]; done.
Qed.

(** * The ranker, further *)

Lemma getSuggestions_total dictionary input :
  ∃ r, getSuggestions dictionary input = Some r ∧
       (length r ≤ 10)%nat ∧ r ⊆+ dictionary.
Proof.
  destruct (decide (input = [])) as [->|Hne].
  - exists []. split; [done|]. split; [simpl; lia|].
    apply submseteq_nil_l.
  - eexists. split; [by apply getSuggestions_rank|]. split.
    + rewrite length_take. lia.
    + etransitivity; [apply submseteq_take|].
      apply Permutation_submseteq.
      apply (js_sort_Permutation (Spec.distance input)).
Qed.

(** * Further theorems *)

(** X1: the distance between two strings is 0 exactly when they are the
    same string. *)
Theorem sequenceTable_zero_iff (a b : jsstring) :
  sequenceTable a b = Some 0 ↔ a = b.
Proof.
  rewrite sequenceTable_dp, <- distance_zero_eq.
  split; congruence.
Qed.

Lemma sequenceTable_zero_iff_witness :
  sequenceTable (lit "cat") (lit "cat") = Some 0.
Proof.
  apply (proj2 (sequenceTable_zero_iff (lit "cat") (lit "cat"))).
  reflexivity.
Defined.

(** X2: the distance satisfies the triangle inequality. *)
Theorem sequenceTable_triangle (a b c : jsstring) :
  ∃ dab dbc dac,
    sequenceTable a b = Some dab ∧ sequenceTable b c = Some dbc ∧
    sequenceTable a c = Some dac ∧ dac <= dab + dbc.
Proof.
  exists (Spec.distance a b), (Spec.distance b c), (Spec.distance a c).
  rewrite !sequenceTable_dp. repeat split. apply distance_triangle.
Qed.

(** X3: the distance is at least two for every character by which the
    lengths of the strings differ. *)
Theorem sequenceTable_length_gap (a b : jsstring) :
  ∃ d, sequenceTable a b = Some d ∧
       2 * Z.abs (Z.of_nat (length a) - Z.of_nat (length b)) <= d.
Proof.
  exists (Spec.distance a b). split; [apply sequenceTable_dp|].
  apply dp_ge_gaps.
Qed.

(** X4: a common prefix and a common suffix do not count: the distance
    between [p ++ a ++ s] and [p ++ b ++ s] is the distance between [a]
    and [b]. *)
Theorem sequenceTable_common_affixes (p a b s : jsstring) :
  sequenceTable (p ++ a ++ s) (p ++ b ++ s) = sequenceTable a b.
Proof.
  rewrite !sequenceTable_dp. f_equal.
  by rewrite distance_app_l, distance_app.
Qed.

(** X5: one edit of the input moves its distance to any word by a bounded
    amount: inserting or deleting one character, anywhere, by at most 2,
    and replacing one character by at most the cost of that substitution,
    which is at most 3. *)
Theorem sequenceTable_one_edit (u v w : jsstring) (x y : code_unit) :
  ∃ d0 dx dy,
    sequenceTable (u ++ v) w = Some d0 ∧
    sequenceTable (u ++ x :: v) w = Some dx ∧
    sequenceTable (u ++ y :: v) w = Some dy ∧
    Z.abs (dx - d0) <= 2 ∧
    Z.abs (dx - dy) <= cost_of x y ∧ cost_of x y <= 3.
Proof.
  exists (Spec.distance (u ++ v) w), (Spec.distance (u ++ x :: v) w),
    (Spec.distance (u ++ y :: v) w).
  rewrite !sequenceTable_dp, cost_of_cost. repeat split.
  - pose proof (distance_insert u x v).
    pose proof (distance_triangle (u ++ x :: v) (u ++ v) w).
    pose proof (distance_triangle (u ++ v) (u ++ x :: v) w).
    rewrite (distance_sym (u ++ v) (u ++ x :: v)) in *. lia.
  - pose proof (distance_replace u x y v).
    pose proof (distance_replace u y x v).
    pose proof (distance_triangle (u ++ x :: v) (u ++ y :: v) w).
    pose proof (distance_triangle (u ++ y :: v) (u ++ x :: v) w).
    rewrite (cost_sym y x) in *. lia.
  - apply cost_le_3.
Qed.

(** X6: every suggestion is a word of the dictionary, and no word is
    suggested more often than it occurs in the dictionary. *)
Theorem getSuggestions_from_dictionary (dictionary : list jsstring)
    (input : jsstring) :
  ∃ r, getSuggestions dictionary input = Some r ∧ r ⊆+ dictionary.
Proof.
  destruct (getSuggestions_total dictionary input) as (r & ? & _ & ?).
  by exists r.
Qed.

(** X7: for a non-empty input the suggestions are the closest words: the
    words left out are the rest of the dictionary, and each of them is at
    least as far from the input as every suggestion. *)
Theorem getSuggestions_closest (dictionary : list jsstring)
    (input : jsstring) :
  input ≠ [] →
  ∃ r rest, getSuggestions dictionary input = Some r ∧
            r ++ rest ≡ₚ dictionary ∧
            ∀ w w', w ∈ r → w' ∈ rest → closer input w w'.
Proof.
  intros Hne.
  set (sorted := js_sort
         (λ a b, Spec.distance input a - Spec.distance input b) dictionary).
  exists (take 10 sorted), (drop 10 sorted).
  split; [by apply getSuggestions_rank|]. split.
  - rewrite take_drop. apply (js_sort_Permutation (Spec.distance input)).
  - intros w w' Hw Hw'.
    pose proof (js_sort_sorted (Spec.distance input) dictionary) as Hsorted.
    fold sorted in Hsorted. rewrite <- (take_drop 10 sorted) in Hsorted.
    pose proof (StronglySorted_app_1_elem_of _ _ _ _ _ Hsorted Hw Hw').
    exists (Spec.distance input w), (Spec.distance input w').
    by rewrite !sequenceTable_dp.
Qed.

Lemma getSuggestions_closest_witness :
  ∃ r rest,
    getSuggestions [lit "cot"; lit "dog"; lit "bat"] (lit "cat") = Some r ∧
    r ++ rest ≡ₚ [lit "cot"; lit "dog"; lit "bat"] ∧
    ∀ w w', w ∈ r → w' ∈ rest → closer (lit "cat") w w'.
Proof.
  apply (getSuggestions_closest [lit "cot"; lit "dog"; lit "bat"]
           (lit "cat")).
  vm_compute. discriminate.
Defined.

(** X8: a loaded dictionary has one entry for each line feed of the text
    and one more; it is never empty, and an empty file gives the single
    empty word. *)
Theorem loadDictionary_length (text : jsstring)
    (dictionary : list jsstring) :
  length (loadDictionary (Some text) dictionary)
  = S (length (filter (λ c, c = 10%N) text)).
Proof. simpl. by rewrite length_fmap, split_length. Qed.

(** X9: no entry of a loaded dictionary contains a line feed, and none
    starts or ends with white space. *)
Theorem loadDictionary_tidy (text : jsstring) (dictionary : list jsstring) :
  Forall tidy (loadDictionary (Some text) dictionary).
Proof.
  simpl. apply Forall_fmap.
  eapply Forall_impl; [apply split_no_sep|].
  intros piece Hpiece. repeat split.
  - intros Hin. by apply trim_elem_of in Hin.
  - apply trim_head.
  - apply trim_last.
Qed.

(** X10: a non-empty list of tidy words, written one per line, is loaded
    back as it is. *)
Theorem loadDictionary_round_trip (words dictionary : list jsstring) :
  words ≠ [] → Forall tidy words →
  loadDictionary (Some (join [10%N] words)) dictionary = words.
Proof.
  intros Hne Htidy. simpl.
  rewrite trim_split_join_LF; [|done|].
  - rewrite <- (list_fmap_id words) at 2.
    apply Forall_fmap_ext_1.
    eapply Forall_impl; [done|].
    intros w (_ & Hhead & Hlast). by apply trim_clean.
  - eapply Forall_impl; [done|]. by intros w (? & _).
Qed.

Lemma loadDictionary_round_trip_witness :
  loadDictionary (Some (join [10%N] [lit "cat"; lit "hot dog"])) []
  = [lit "cat"; lit "hot dog"].
Proof.
  apply (loadDictionary_round_trip [lit "cat"; lit "hot dog"] []).
  - discriminate.
  - assert (∀ w, (10%N ∉ w) → (∃ c, head w = Some c ∧ is_white_space c = false)
              → (∃ c, last w = Some c ∧ is_white_space c = false) → tidy w)
      as Htidy.
    { intros w ? (c1 & Hc1 & ?) (c2 & Hc2 & ?).
      split; [done|]. split; intros c Hc; congruence. }
    apply Forall_cons; split; [|apply Forall_cons; split; [|constructor]].
    + apply Htidy; [compute_done|by eexists..].
    + apply Htidy; [compute_done|by eexists..].
Defined.

(** X11: a file with CR LF line ends loads as the same file with LF line
    ends. *)
Theorem loadDictionary_CRLF (words dictionary : list jsstring) :
  words ≠ [] → Forall (λ w, 10%N ∉ w) words →
  loadDictionary (Some (join [13; 10]%N words)) dictionary
  = loadDictionary (Some (join [10%N] words)) dictionary.
Proof.
  intros Hne Hall. simpl.
  by rewrite trim_split_join_CRLF, trim_split_join_LF.
Qed.

Lemma loadDictionary_CRLF_witness :
  loadDictionary (Some (join [13; 10]%N [lit "cat"; lit "dog"])) []
  = loadDictionary (Some (join [10%N] [lit "cat"; lit "dog"])) [].
Proof.
  apply (loadDictionary_CRLF [lit "cat"; lit "dog"] []).
  - discriminate.
  - apply Forall_cons; split; [|apply Forall_cons; split; [|constructor]].
    + compute_done.
    + compute_done.
Defined.

(** X12: a line feed at the end of the file adds the empty word as the
    last entry of the dictionary. *)
Theorem loadDictionary_trailing_newline (text : jsstring)
    (dictionary : list jsstring) :
  loadDictionary (Some (text ++ [10%N])) dictionary
  = loadDictionary (Some text) dictionary ++ [[]].
Proof. simpl. by rewrite split_snoc_sep, fmap_app. Qed.

(** X13: no event makes a listener fail, and the list never shows more
    than ten items. *)
Theorem run_at_most_ten (events : list event) (p : page) :
  (length (list_items p) ≤ 10)%nat →
  ∃ p', run events p = Some p' ∧ (length (list_items p') ≤ 10)%nat.
Proof.
  revert p. induction events as [|e events IH]; intros p Hp.
  - by exists p.
  - assert (∃ p1, handle e p = Some p1 ∧ (length (list_items p1) ≤ 10)%nat)
      as (p1 & Hp1 & Hlen).
    { destruct e as [response|value|k]; simpl.
      - by eexists.
      - destruct (getSuggestions_total (page_dictionary p) value)
          as (r & -> & Hr & _).
        by eexists.
      - destruct (list_items p !! k); eexists; (split; [done|]);
          [simpl; lia|done]. }
    destruct (IH p1 Hlen) as (p' & Hrun & Hp').
    exists p'. simpl. by rewrite Hp1.
Qed.

Lemma run_at_most_ten_witness :
  ∃ p', run [Loaded (Some (lit "cat")); Input (lit "cot"); Click 0]
          (Page [] [] []) = Some p' ∧
        (length (list_items p') ≤ 10)%nat.
Proof.
  apply (run_at_most_ten
           [Loaded (Some (lit "cat")); Input (lit "cot"); Click 0%nat]
           (Page [] [] [])).
  simpl. lia.
Defined.



(** X15: until the dictionary has been loaded, or when loading it fails,
    no event shows a suggestion. *)
Theorem no_suggestions_until_loaded (events : list event)
    (value : jsstring) :
  Forall quiet events →
  ∃ field, run events (Page value [] []) = Some (Page field [] []).
Proof.
  revert value. induction events as [|e events IH]; intros value Hquiet.
  - by exists value.
  - apply Forall_cons in Hquiet as [He Hquiet].
    destruct e as [[text|]|value'|k]; simpl.
    + by destruct (He text).
    + by apply IH.
    + assert (getSuggestions [] value' = Some []) as ->
        by by destruct value'.
      simpl. by apply IH.
    + by apply IH.
Qed.

Lemma no_suggestions_until_loaded_witness :
  ∃ field,
    run [Loaded None; Input (lit "cat"); Click 0] (Page [] [] [])
    = Some (Page field [] []).
Proof.
  apply (no_suggestions_until_loaded
           [Loaded None; Input (lit "cat"); Click 0%nat] []).
  repeat constructor; intros text; discriminate.
Defined.

(** * The distance engine, further *)

Lemma distance_nil_l s : Spec.distance [] s = 2 * Z.of_nat (length s).
Proof. apply dp_row_0. Qed.

Lemma distance_nil_r s : Spec.distance s [] = 2 * Z.of_nat (length s).
Proof. apply dp_col_0. Qed.

(** The last step of an alignment, at the ends of the strings. *)
Lemma distance_snoc_snoc a x b y :
  Spec.distance (a ++ [x]) (b ++ [y]) =
    Z.min (Spec.distance a (b ++ [y]) + 2)
      (Z.min (Spec.distance (a ++ [x]) b + 2)
         (Spec.distance a b + Spec.cost x y)).
Proof.
  unfold Spec.distance. rewrite !length_app, !Nat.add_1_r, dp_step.
  rewrite (dp_app_l a _ [x] (length a) (S (length b))) by done.
  rewrite (dp_app_r _ b [y] (S (length a)) (length b)) by done.
  rewrite (dp_app_l a _ [x] (length a) (length b)) by done.
  rewrite (dp_app_r a b [y] (length a) (length b)) by done.
  rewrite (lookup_total_app_r a), (lookup_total_app_r b) by done.
  by rewrite !Nat.sub_diag.
Qed.

(** The first step of an alignment, at the starts of the strings. *)
Lemma distance_cons_cons x a y b :
  Spec.distance (x :: a) (y :: b) =
    Z.min (Spec.distance a (y :: b) + 2)
      (Z.min (Spec.distance (x :: a) b + 2)
         (Spec.distance a b + Spec.cost x y)).
Proof. apply dp_front. Qed.

Lemma distance_reverse a b :
  Spec.distance (reverse a) (reverse b) = Spec.distance a b.
Proof.
  revert b. induction a as [|x a IHa]; intros b.
  - by rewrite reverse_nil, !distance_nil_l, length_reverse.
  - induction b as [|y b IHb].
    + by rewrite reverse_nil, !distance_nil_r, length_reverse.
    + rewrite distance_cons_cons, <- IHb, <- !IHa.
      rewrite !reverse_cons. apply distance_snoc_snoc.
Qed.

(** X16: reading both strings backwards leaves the distance unchanged. *)
Theorem sequenceTable_reverse (a b : jsstring) :
  sequenceTable (reverse a) (reverse b) = sequenceTable a b.
Proof. by rewrite !sequenceTable_dp, distance_reverse. Qed.

(** X17: a word that the input starts, ends, or sits inside is at twice
    the number of characters that are missing from the input. *)
Theorem sequenceTable_completion (p input s : jsstring) :
  sequenceTable input (p ++ input ++ s)
  = Some (2 * Z.of_nat (length p + length s)).
Proof.
  rewrite sequenceTable_dp. f_equal. apply Z.le_antisymm.
  - pose proof (distance_triangle input (input ++ s) (p ++ input ++ s)) as Ht.
    pose proof (distance_app_l input [] s) as Hs.
    pose proof (distance_app [] p (input ++ s)) as Hp.
    rewrite app_nil_r in Hs. rewrite distance_nil_l in Hs, Hp.
    simpl in Hp. lia.
  - pose proof (dp_ge_gaps input (p ++ input ++ s)
                  (length input) (length (p ++ input ++ s))) as Hge.
    unfold Spec.distance. rewrite !length_app in *. lia.
Qed.

(** X18: two strings of one character are at the cost of substituting
    one for the other: 0, 1 or 3, never the 4 of a deletion and an
    insertion. *)
Theorem sequenceTable_single (x y : code_unit) :
  sequenceTable [x] [y] = Some (cost_of x y).
Proof.
  rewrite sequenceTable_dp, cost_of_cost. f_equal.
  unfold Spec.distance. simpl length. rewrite dp_step, !dp_row_0, !dp_col_0.
  pose proof (cost_le_3 x y). simpl. lia.
Qed.

(** X19: ranking is idempotent: the suggestions, ranked again for the same
    input, come back as they are. *)
Theorem getSuggestions_idempotent (dictionary r : list jsstring)
    (input : jsstring) :
  getSuggestions dictionary input = Some r →
  getSuggestions r input = Some r.
Proof.
  intros Hr.
  destruct (decide (input = [])) as [->|Hne]; [by simplify_eq/=|].
  rewrite getSuggestions_rank in Hr by done.
  rewrite getSuggestions_rank by done. f_equal.
  assert (StronglySorted
            (λ a b, Spec.distance input a <= Spec.distance input b) r)
    as Hsorted.
  { simplify_eq. apply StronglySorted_take.
    apply (js_sort_sorted (Spec.distance input)). }
  rewrite <- (js_sort_unique (Spec.distance input) r r) by done.
  apply take_ge. simplify_eq. rewrite length_take. lia.
Qed.

Lemma getSuggestions_idempotent_witness :
  getSuggestions [lit "cat"; lit "bat"] (lit "cat")
  = Some [lit "cat"; lit "bat"].
Proof.
  apply (getSuggestions_idempotent [lit "bat"; lit "cat"]
           [lit "cat"; lit "bat"] (lit "cat")).
  vm_compute. reflexivity.
Defined.
